(** * A model of [src/software/watchdog.py]

    The program runs [video_processing] on a daemon thread: it opens the
    camera, then loops capturing a frame, applying the MOG2 background
    subtractor to it and publishing [frame.copy()] into the global
    [output_frame] under [lock].  [generate_image] is the gradio callback: it
    takes the lock and wraps the current [output_frame] (if any) in a
    [gr.Image].  The main program starts the thread, sleeps one second and
    exposes the gradio interface only if the thread is still alive.

    NumPy arrays are heap objects: the heap maps locations to pixel buffers,
    and [output_frame] holds a location (a Python reference), so that the
    aliasing between the slot and the images handed to gradio is explicit. *)

From stdpp Require Import base gmap list strings.
From Stdlib Require Import ZArith.

(** ** Data *)

(** A pixel buffer (the content of a NumPy array). *)
Definition Frame := list Z.

(** A reference to a NumPy array. *)
Definition loc := nat.

(** The exceptions that can escape a call. *)
Inductive exn :=
| KeyboardInterrupt   (** the process interrupt *)
| StartupError        (** [Picamera2()] / [configure] / [start] failed *)
| CaptureError        (** [camera.capture_array()] failed *)
| TransformError.     (** [background_subtract.apply(frame)] failed *)

Global Instance exn_eq_dec : EqDecision exn.
Proof. solve_decision. Defined.

(** The result of a Python call: a value or a raised exception. *)
Inductive outcome (A : Type) :=
| Ok (a : A)
| Raise (e : exn).
Arguments Ok {A} a.
Arguments Raise {A} e.

(** Observable effects of the capture thread, in order. *)
Inductive event :=
| EvCapture (f : Frame)          (** [frame = camera.capture_array()] *)
| EvApply (f : Frame) (mask : Frame)
                                 (** [mask = background_subtract.apply(frame)] *)
| EvPublish (l : loc)            (** [output_frame = frame.copy()] *)
| EvStop.                        (** [camera.stop()] *)

(** The process state shared by the two threads. *)
Record store := mk_store {
  heap : gmap loc Frame;         (** the NumPy arrays alive *)
  next_loc : loc;                (** the next fresh array location *)
  output_frame : option loc;     (** the global [output_frame] ([None] is Python's None) *)
  events : list event            (** what the capture thread did *)
}.

Definition initial_store : store :=
  {| heap := ∅; next_loc := 0; output_frame := None; events := [] |}.

(** A well-formed store: every live array sits below [next_loc], and
    [output_frame] refers to a live array. *)
Definition store_wf (s : store) : Prop :=
  (∀ l, l ∈ dom (heap s) → l < next_loc s) ∧
  (∀ l, output_frame s = Some l → is_Some (heap s !! l)).

Definition log (ev : event) (s : store) : store :=
  {| heap := heap s; next_loc := next_loc s; output_frame := output_frame s;
     events := events s ++ [ev] |}.

(** [np.ndarray.copy]: a fresh array holding the same pixels. *)
Definition alloc (f : Frame) (s : store) : loc * store :=
  let l := next_loc s in
  (l, {| heap := <[l := f]> (heap s); next_loc := S l;
         output_frame := output_frame s; events := events s |}).

(** [with lock: output_frame = frame.copy()] (the lock is modelled in
    module [Interleaving]; sequentially it has no effect). *)
Definition publish (f : Frame) (s : store) : store :=
  let '(l, s1) := alloc f s in
  {| heap := heap s1; next_loc := next_loc s1; output_frame := Some l;
     events := events s1 ++ [EvPublish l] |}.

(** [camera.stop()] *)
Definition camera_stop (s : store) : store := log EvStop s.

(** A [gr.Image] object: [gr.Image(value=output_frame, label="Camera")]
    keeps a reference to the array, it does not copy it. *)
Record Image := mk_image { image_value : loc }.

(** [generate_image]: [image_object = None]; under the lock, if
    [output_frame is not None] wrap it in a [gr.Image]; return it.
    [None] is the "not ready" answer. *)
Definition generate_image (s : store) : option Image * store :=
  let image_object :=
    match output_frame s with
    | Some l => Some (mk_image l)
    | None => None
    end in
  (image_object, s).

(** The pixels an image handed to gradio shows when it is rendered. *)
Definition image_content (s : store) (img : option Image) : option Frame :=
  match img with
  | Some i => heap s !! image_value i
  | None => None
  end.

(** ** The capture thread *)

Section CaptureThread.

(** The learned background model of [cv.createBackgroundSubtractorMOG2()]
    and its [apply] method: it returns the mask and updates the model, or
    raises. *)
Variable BG : Type.
Variable bg_init : BG.
Variable bg_apply : BG → Frame → outcome (Frame * BG).

(** One pass of the [while (1)] body; [c] is what
    [camera.capture_array()] returned. The result carries the state at
    the point the body finished or raised. *)
Definition iteration (bg : BG) (c : outcome Frame) (s : store)
    : store * outcome BG :=
  match c with
  | Raise e => (s, Raise e)
  | Ok frame =>
      let s1 := log (EvCapture frame) s in
      match bg_apply bg frame with
      | Raise e => (s1, Raise e)
      | Ok (mask, bg') =>
          (* TODO: [mask] is not used *)
          (publish frame (log (EvApply frame mask) s1), Ok bg')
      end
  end.

(** The [while (1)] loop, run over the camera's answers to successive
    [capture_array] calls.  [Ok bg] at the end means the loop is still
    running when the script runs out; [Raise e] means [e] escaped it. *)
Fixpoint capture_loop (script : list (outcome Frame)) (bg : BG) (s : store)
    : store * outcome BG :=
  match script with
  | [] => (s, Ok bg)
  | c :: rest =>
      match iteration bg c s with
      | (s', Ok bg') => capture_loop rest bg' s'
      | (s', Raise e) => (s', Raise e)
      end
  end.

(** [video_processing]: [opened] is the outcome of opening, configuring
    and starting the camera (outside the [try]); then the loop runs in
    the [try] whose only handler catches [KeyboardInterrupt], stops the
    camera and re-raises. *)
Definition video_processing (opened : outcome unit)
    (script : list (outcome Frame)) (s : store) : store * outcome BG :=
  match opened with
  | Raise e => (s, Raise e)
  | Ok _ =>
      match capture_loop script bg_init s with
      | (s', Raise KeyboardInterrupt) => (camera_stop s', Raise KeyboardInterrupt)
      | r => r
      end
  end.

End CaptureThread.

Arguments iteration {BG} bg_apply bg c s.
Arguments capture_loop {BG} bg_apply script bg s.
Arguments video_processing {BG} bg_init bg_apply opened script s.

(** A background subtractor that never fails (its model is [unit]). *)
Definition identity_subtractor (_ : unit) (f : Frame) : outcome (Frame * unit) :=
  Ok (f, tt).

(** A background subtractor that raises on every frame. *)
Definition failing_subtractor (_ : unit) (_ : Frame) : outcome (Frame * unit) :=
  Raise TransformError.

(** Number of [camera.stop()] calls in an event log. *)
Fixpoint stop_count (evs : list event) : nat :=
  match evs with
  | [] => 0
  | EvStop :: rest => S (stop_count rest)
  | _ :: rest => stop_count rest
  end.

(** ** The main program *)

Module Supervisor.

(** [sleep(1)], in milliseconds. *)
Definition GRACE_MS : nat := 1000.

(** The service readiness the main program goes through. *)
Inductive readiness := NotStarted | Launching | Ready | Failed.

(** How the video thread runs, on the main thread's clock (milliseconds
    after [video_thread.start()]): the time [video_processing] returned
    (by raising), if it did. *)
Record thread_run := mk_thread_run { ended_at : option nat }.

(** [video_thread.is_alive()] at time [t]. *)
Definition is_alive (th : thread_run) (t : nat) : bool :=
  match ended_at th with
  | None => true
  | Some t_end => t <? t_end
  end.

(** The video thread ends when [video_processing] raises: at [t_open] if
    opening the camera raised, otherwise when the loop raises (at
    [t_fail]). *)
Definition video_thread {BG} (bg_init : BG) bg_apply (opened : outcome unit)
    (script : list (outcome Frame)) (t_open t_fail : nat) : thread_run :=
  match opened with
  | Raise _ => mk_thread_run (Some t_open)
  | Ok _ =>
      match (video_processing bg_init bg_apply opened script initial_store).2 with
      | Raise _ => mk_thread_run (Some t_fail)
      | Ok _ => mk_thread_run None
      end
  end.

(** The outcome of [if __name__ == "__main__"]: the readiness states it
    passed through with the time each was entered, and what it printed. *)
Record main_result := mk_main_result {
  trace : list (nat * readiness);
  printed : list string
}.

Definition main (th : thread_run) : main_result :=
  let t_start := 0 in                    (* video_thread.start() *)
  let t_check := t_start + GRACE_MS in   (* sleep(1) *)
  if is_alive th t_check then
    (* gr.Interface(fn=generate_image, ...).queue().launch(...) *)
    mk_main_result [(0, NotStarted); (t_start, Launching); (t_check, Ready)]
      ["Starting web API (may take a while)."]
  else
    mk_main_result [(0, NotStarted); (t_start, Launching); (t_check, Failed)]
      ["Unable to do video processing!"].

(** The readiness the main program ends in. *)
Definition final_state (r : main_result) : readiness :=
  match last (trace r) with
  | Some (_, st) => st
  | None => NotStarted
  end.

(** An external request to the gradio interface: refused unless the
    interface was launched, otherwise answered by [generate_image]. *)
Definition query (r : main_result) (s : store) : option (option Image) :=
  match final_state r with
  | Ready => Some (generate_image s).1
  | _ => None
  end.

End Supervisor.

(** ** Signals and threads

    [video_processing] runs on [video_thread], a daemon thread; the main
    thread sits in [app.queue().launch(...)].  A Ctrl-C sends SIGINT to
    the process. *)

Module Process.

Inductive thread := MainThread | VideoThread.

(** CPython runs Python-level signal handlers in the main thread only: the
    default SIGINT handler raises [KeyboardInterrupt] there, whichever
    thread was running when the signal arrived. *)
Definition sigint_thread : thread := MainThread.

(** The observable state of the process: the capture thread's store (its
    event log records [camera.stop()]), and which threads are alive. *)
Record process := mk_process {
  video_store : store;
  video_alive : bool;
  main_alive : bool
}.

(** The process while gradio serves, after the capture loop has run [n]
    iterations of [script] (the camera opened and started). *)
Definition running {BG} (bg_init : BG) bg_apply (script : list (outcome Frame))
    (n : nat) : process :=
  mk_process (capture_loop bg_apply (take n script) bg_init initial_store).1 true true.

(** [KeyboardInterrupt] raised in thread [t] of [running ... n]. *)
Definition raise_in {BG} (bg_init : BG) bg_apply (script : list (outcome Frame))
    (n : nat) (t : thread) : process :=
  match t with
  | VideoThread =>
      (* the pending [camera.capture_array()] raises: [video_processing]
         runs its handler; the main thread keeps serving *)
      mk_process
        (video_processing bg_init bg_apply (Ok tt)
           (take n script ++ [Raise KeyboardInterrupt]) initial_store).1
        false true
  | MainThread =>
      (* [launch()] raises, nothing in [__main__] catches it, the
         interpreter exits; a daemon thread is stopped at exit without
         running any more Python code, so its [except] clause never runs *)
      mk_process (video_store (running bg_init bg_apply script n)) false false
  end.

(** A SIGINT arriving while [running ... n]. *)
Definition deliver_sigint {BG} (bg_init : BG) bg_apply
    (script : list (outcome Frame)) (n : nat) : process :=
  raise_in bg_init bg_apply script n sigint_thread.

End Process.

(** ** The two threads interleaved

    The capture thread publishes under [lock]: it takes the lock, allocates
    the array of [frame.copy()], fills it pixel by pixel, binds
    [output_frame] to it and releases the lock.  Any number of gradio
    workers run [generate_image]: take the lock, read [output_frame] into a
    [gr.Image], release the lock (leaving the [with] block), and only then
    return the image.  [published] records, in order, the
    frames whose publish has completed (the assignment to [output_frame]),
    and [served] the images returned, each with the number of publishes
    completed when its [output_frame] was read. *)

Module Interleaving.

Inductive pstate :=
| PIdle                              (** outside [with lock] *)
| PLocked (f : Frame)                (** holding the lock, about to copy [f] *)
| PCopy (f : Frame) (l : loc) (n : nat)
                                     (** [n] pixels of [f] copied into array [l] *)
| PAssigned.                         (** [output_frame] bound, lock still held *)

Inductive rstate :=
| RIdle                              (** not in [generate_image] *)
| RLocked                            (** holding the lock *)
| RRead (img : option Image) (n : nat)
                                     (** [image_object] built, lock still held *)
| RReleased (img : option Image) (n : nat).
                                     (** lock released, [return image_object]
                                         still to run *)

(** A worker in this state is inside [generate_image]'s [with lock:]. *)
Definition in_with (r : rstate) : Prop :=
  match r with
  | RLocked | RRead _ _ => True
  | _ => False
  end.

(** A worker in this state holds the image [img], read when [n]
    publishes had completed, and has not returned it yet. *)
Definition holds (r : rstate) (img : option Image) (n : nat) : Prop :=
  match r with
  | RRead img' n' | RReleased img' n' => img' = img ∧ n' = n
  | _ => False
  end.

Inductive holder := ByProducer | ByReader (i : nat).

Record world := mk_world {
  mem : store;
  lock : option holder;
  producer : pstate;
  readers : list rstate;
  published : list Frame;
  served : list (option Image * nat)
}.

Definition init_world (k : nat) : world :=
  {| mem := initial_store; lock := None; producer := PIdle;
     readers := replicate k RIdle; published := []; served := [] |}.

Definition with_heap (h : gmap loc Frame) (s : store) : store :=
  {| heap := h; next_loc := next_loc s; output_frame := output_frame s;
     events := events s |}.

Definition with_output (l : loc) (s : store) : store :=
  {| heap := heap s; next_loc := next_loc s; output_frame := Some l;
     events := events s |}.

Inductive step : world → world → Prop :=
| P_acquire w f :
    lock w = None → producer w = PIdle →
    step w {| mem := mem w; lock := Some ByProducer; producer := PLocked f;
              readers := readers w; published := published w; served := served w |}
| P_alloc w f :
    producer w = PLocked f →
    step w {| mem := (alloc [] (mem w)).2; lock := lock w;
              producer := PCopy f (alloc [] (mem w)).1 0;
              readers := readers w; published := published w; served := served w |}
| P_fill w f l n x :
    producer w = PCopy f l n → f !! n = Some x →
    step w {| mem := with_heap (<[l := take (S n) f]> (heap (mem w))) (mem w);
              lock := lock w; producer := PCopy f l (S n);
              readers := readers w; published := published w; served := served w |}
| P_assign w f l :
    producer w = PCopy f l (length f) →
    step w {| mem := with_output l (mem w); lock := lock w; producer := PAssigned;
              readers := readers w; published := published w ++ [f];
              served := served w |}
| P_release w :
    producer w = PAssigned →
    step w {| mem := mem w; lock := None; producer := PIdle;
              readers := readers w; published := published w; served := served w |}
| R_acquire w i :
    readers w !! i = Some RIdle → lock w = None →
    step w {| mem := mem w; lock := Some (ByReader i); producer := producer w;
              readers := <[i := RLocked]> (readers w);
              published := published w; served := served w |}
| R_read w i :
    readers w !! i = Some RLocked →
    step w {| mem := mem w; lock := lock w; producer := producer w;
              readers := <[i := RRead (generate_image (mem w)).1
                                      (length (published w))]> (readers w);
              published := published w; served := served w |}
| R_release w i img n :
    readers w !! i = Some (RRead img n) →
    step w {| mem := mem w; lock := None; producer := producer w;
              readers := <[i := RReleased img n]> (readers w);
              published := published w; served := served w |}
| R_return w i img n :
    readers w !! i = Some (RReleased img n) →
    step w {| mem := mem w; lock := lock w; producer := producer w;
              readers := <[i := RIdle]> (readers w);
              published := published w; served := served w ++ [(img, n)] |}.

(** What a read may observe, given the arrays [h] and the completed
    publishes [pub]: nothing when no publish had completed, otherwise an
    array holding exactly the frame of the [n]-th completed publish. *)
Definition obs_ok (h : gmap loc Frame) (pub : list Frame)
    (img : option Image) (n : nat) : Prop :=
  match img with
  | None => n = 0
  | Some i => n ≠ 0 ∧ ∃ f, h !! image_value i = Some f ∧ pub !! (n - 1) = Some f
  end.

(** The image does not refer to the array the capture thread is filling. *)
Definition not_copy_target (p : pstate) (img : option Image) : Prop :=
  match p, img with
  | PCopy _ l _, Some i => image_value i ≠ l
  | _, _ => True
  end.

(** The invariant of every reachable world. *)
Definition inv (w : world) : Prop :=
  (∀ l, is_Some (heap (mem w) !! l) → l < next_loc (mem w)) ∧
  obs_ok (heap (mem w)) (published w) (generate_image (mem w)).1
    (length (published w)) ∧
  not_copy_target (producer w) (generate_image (mem w)).1 ∧
  (∀ i r, readers w !! i = Some r → ∀ img n, holds r img n →
     obs_ok (heap (mem w)) (published w) img n ∧ not_copy_target (producer w) img) ∧
  (∀ img n, (img, n) ∈ served w →
     obs_ok (heap (mem w)) (published w) img n ∧ not_copy_target (producer w) img) ∧
  (∀ f l n, producer w = PCopy f l n → heap (mem w) !! l = Some (take n f)).

End Interleaving.

(** ** Counting and lock discipline *)

(** Number of [output_frame = frame.copy()] assignments in an event log. *)
Fixpoint publish_count (evs : list event) : nat :=
  match evs with
  | [] => 0
  | EvPublish _ :: rest => S (publish_count rest)
  | _ :: rest => publish_count rest
  end.

(** Who may be inside a [with lock:] block, given the holder of [lock]:
    with the lock free nobody is; the capture thread is inside exactly
    when it holds the lock; a gradio worker is inside exactly when it
    holds it, and then every other worker is outside. *)
Definition lock_inv (w : Interleaving.world) : Prop :=
  match Interleaving.lock w with
  | None =>
      Interleaving.producer w = Interleaving.PIdle ∧
      ∀ i r, Interleaving.readers w !! i = Some r → ¬ Interleaving.in_with r
  | Some Interleaving.ByProducer =>
      Interleaving.producer w ≠ Interleaving.PIdle ∧
      ∀ i r, Interleaving.readers w !! i = Some r → ¬ Interleaving.in_with r
  | Some (Interleaving.ByReader i) =>
      Interleaving.producer w = Interleaving.PIdle ∧
      (∃ r, Interleaving.readers w !! i = Some r ∧ Interleaving.in_with r) ∧
      ∀ j r, j ≠ i → Interleaving.readers w !! j = Some r → ¬ Interleaving.in_with r
  end.

(** * Properties *)

(** ** Helper lemmas on the capture thread *)

Lemma stop_count_app (l1 l2 : list event) :
  stop_count (l1 ++ l2) = stop_count l1 + stop_count l2.
Proof. induction l1 as [|[] l1 IH]; simpl; lia. Qed.

Lemma capture_loop_app {BG} bg_apply (pre rest : list (outcome Frame)) (bg : BG) s :
  capture_loop bg_apply (pre ++ rest) bg s =
    match capture_loop bg_apply pre bg s with
    | (s', Ok bg') => capture_loop bg_apply rest bg' s'
    | r => r
    end.
Proof.
  revert bg s. induction pre as [|c pre IH]; intros bg s; simpl; [done|].
  destruct (iteration bg_apply bg c s) as [s' [bg'|e]]; [apply IH|done].
Qed.

(** One iteration only adds arrays at fresh locations and logs no
    [camera.stop()]. *)
Lemma iteration_frame {BG} bg_apply (bg : BG) c s :
  next_loc s ≤ next_loc (iteration bg_apply bg c s).1 ∧
  (∀ l, l < next_loc s → heap (iteration bg_apply bg c s).1 !! l = heap s !! l) ∧
  stop_count (events (iteration bg_apply bg c s).1) = stop_count (events s).
Proof.
  unfold iteration. destruct c as [frame|e]; simpl; [|split_and!; auto].
  destruct (bg_apply bg frame) as [[mask bg']|e]; simpl.
  - split_and!; [lia| |].
    + intros l Hl. rewrite lookup_insert_ne; [done|lia].
    + rewrite !stop_count_app. simpl. lia.
  - split_and!; [lia|done|]. rewrite stop_count_app. simpl. lia.
Qed.

Lemma capture_loop_frame {BG} bg_apply script (bg : BG) s :
  next_loc s ≤ next_loc (capture_loop bg_apply script bg s).1 ∧
  (∀ l, l < next_loc s → heap (capture_loop bg_apply script bg s).1 !! l = heap s !! l) ∧
  stop_count (events (capture_loop bg_apply script bg s).1) = stop_count (events s).
Proof.
  revert bg s. induction script as [|c script IH]; intros bg s; simpl; [done|].
  pose proof (iteration_frame bg_apply bg c s) as (Hn & Hh & Hs).
  destruct (iteration bg_apply bg c s) as [s' [bg'|e]] eqn:Hit; simpl in *;
    [|split_and!; done].
  destruct (IH bg' s') as (Hn' & Hh' & Hs'). split_and!.
  - lia.
  - intros l Hl. rewrite Hh' by lia. by apply Hh.
  - by rewrite Hs'.
Qed.

(** ** C1: the raw frame is published, the mask is dropped *)

(** C1. In every iteration of the capture loop the background subtractor is
    applied to the captured frame, and what is bound to [output_frame] is a
    fresh copy of the raw captured frame: the heap gains exactly that array
    and the mask is not stored anywhere. *)
Theorem iteration_publishes_raw_frame {BG} bg_apply (bg bg' : BG)
    (frame mask : Frame) (s : store) :
  bg_apply bg frame = Ok (mask, bg') →
  (iteration bg_apply bg (Ok frame) s).2 = Ok bg' ∧
  events (iteration bg_apply bg (Ok frame) s).1 =
    events s ++ [EvCapture frame; EvApply frame mask; EvPublish (next_loc s)] ∧
  output_frame (iteration bg_apply bg (Ok frame) s).1 = Some (next_loc s) ∧
  heap (iteration bg_apply bg (Ok frame) s).1 = <[next_loc s := frame]> (heap s).
Proof.
  intros Happ. unfold iteration. rewrite Happ. simpl.
  split_and!; try done. by rewrite <- !app_assoc.
Qed.

Lemma iteration_publishes_raw_frame_witness :
  (λ (_ : unit) (f : Frame), Ok (map (λ _, 0%Z) f, tt)) tt [7%Z; 8%Z]
    = Ok ([0%Z; 0%Z], tt) ∧
  (iteration (λ (_ : unit) (f : Frame), Ok (map (λ _, 0%Z) f, tt)) tt
     (Ok [7%Z; 8%Z]) initial_store).2 = Ok tt ∧
  events (iteration (λ (_ : unit) (f : Frame), Ok (map (λ _, 0%Z) f, tt)) tt
     (Ok [7%Z; 8%Z]) initial_store).1 =
    events initial_store ++ [EvCapture [7%Z; 8%Z]; EvApply [7%Z; 8%Z] [0%Z; 0%Z];
                             EvPublish (next_loc initial_store)] ∧
  output_frame (iteration (λ (_ : unit) (f : Frame), Ok (map (λ _, 0%Z) f, tt)) tt
     (Ok [7%Z; 8%Z]) initial_store).1 = Some (next_loc initial_store) ∧
  heap (iteration (λ (_ : unit) (f : Frame), Ok (map (λ _, 0%Z) f, tt)) tt
     (Ok [7%Z; 8%Z]) initial_store).1 =
    <[next_loc initial_store := [7%Z; 8%Z]]> (heap initial_store).
Proof.
  split; [reflexivity|].
  apply (iteration_publishes_raw_frame _ tt tt [7%Z; 8%Z] [0%Z; 0%Z]).
  reflexivity.
Defined.

(** ** C3: an empty slot answers "not ready" *)

(** C3. When [output_frame] is [None], [generate_image] returns [None] (no
    image) and leaves the state as it was; it does not wait for a frame
    and builds no image. *)
Theorem generate_image_empty (s : store) :
  output_frame s = None →
  generate_image s = (None, s) ∧ image_content s (generate_image s).1 = None.
Proof. intros H. unfold generate_image. by rewrite H. Qed.

Lemma generate_image_empty_witness :
  output_frame initial_store = None ∧
  generate_image initial_store = (None, initial_store) ∧
  image_content initial_store (generate_image initial_store).1 = None.
Proof. split; [reflexivity|]. apply generate_image_empty. reflexivity. Defined.

(** ** C4: the latest publish wins *)

(** C4. Publishing [f1] then [f2] leaves [output_frame] bound to one array,
    the copy of [f2], and a read then shows exactly [f2]. *)
Theorem publish_latest_wins (s : store) (f1 f2 : Frame) :
  output_frame (publish f2 (publish f1 s)) = Some (S (next_loc s)) ∧
  image_content (publish f2 (publish f1 s))
    (generate_image (publish f2 (publish f1 s))).1 = Some f2.
Proof. simpl. split; [done|]. by rewrite lookup_insert_eq. Qed.

(** ** C5: reading twice gives the same image *)

(** C5. Two calls of [generate_image] with no publish in between return
    the same image, showing the same pixels, and neither changes the
    state. *)
Theorem generate_image_idempotent (s : store) :
  (generate_image s).2 = s ∧
  (generate_image (generate_image s).2).2 = s ∧
  (generate_image (generate_image s).2).1 = (generate_image s).1 ∧
  image_content (generate_image (generate_image s).2).2
    (generate_image (generate_image s).2).1 =
  image_content (generate_image s).2 (generate_image s).1.
Proof. by unfold generate_image. Qed.

(** ** C6: a capture or transform error ends the capture thread *)

(** C6 does not hold: when the second [capture_array] call raises, the
    error escapes [video_processing] (the handler only catches
    [KeyboardInterrupt]), the third frame is never captured and the camera
    is not stopped; a raising [apply] ends the thread the same way. *)
Lemma capture_error_not_skipped :
  (video_processing tt identity_subtractor (Ok tt)
     [Ok [1%Z]; Raise CaptureError; Ok [2%Z]] initial_store).2 = Raise CaptureError ∧
  (EvCapture [2%Z] ∉ events (video_processing tt identity_subtractor (Ok tt)
     [Ok [1%Z]; Raise CaptureError; Ok [2%Z]] initial_store).1) ∧
  stop_count (events (video_processing tt identity_subtractor (Ok tt)
     [Ok [1%Z]; Raise CaptureError; Ok [2%Z]] initial_store).1) = 0 ∧
  (video_processing tt failing_subtractor (Ok tt)
     [Ok [1%Z]; Ok [2%Z]] initial_store).2 = Raise TransformError ∧
  (EvCapture [2%Z] ∉ events (video_processing tt failing_subtractor (Ok tt)
     [Ok [1%Z]; Ok [2%Z]] initial_store).1).
Proof. vm_compute. split_and!; try reflexivity; set_solver. Qed.

(** C6 (as the code does it). If, after some successful iterations, a
    [capture_array] or [apply] call raises an error other than
    [KeyboardInterrupt], the error escapes [video_processing]: the rest of
    the camera's frames are never consumed, [camera.stop()] is not called,
    and [output_frame] and the arrays are left as the last successful
    iteration left them, so the last published frame stays readable. *)
Theorem capture_error_terminates {BG} (bg_init : BG) bg_apply
    (pre : list (outcome Frame)) (c : outcome Frame) (post : list (outcome Frame))
    (s s1 s2 : store) (bg1 : BG) (e : exn) :
  capture_loop bg_apply pre bg_init s = (s1, Ok bg1) →
  iteration bg_apply bg1 c s1 = (s2, Raise e) →
  e ≠ KeyboardInterrupt →
  video_processing bg_init bg_apply (Ok tt) (pre ++ c :: post) s = (s2, Raise e) ∧
  output_frame s2 = output_frame s1 ∧ heap s2 = heap s1 ∧
  stop_count (events s2) = stop_count (events s).
Proof.
  intros Hpre Hit Hne.
  pose proof (capture_loop_frame bg_apply pre bg_init s) as (_ & _ & Hs1).
  pose proof (iteration_frame bg_apply bg1 c s1) as (_ & _ & Hs2).
  rewrite Hpre in Hs1. rewrite Hit in Hs2. simpl in Hs1, Hs2.
  assert (output_frame s2 = output_frame s1 ∧ heap s2 = heap s1) as [Ho Hh].
  { unfold iteration in Hit. destruct c as [frame|e'].
    - destruct (bg_apply bg1 frame) as [[mask bg']|e'']; simplify_eq/=; done.
    - by simplify_eq. }
  split_and!; [|done|done|lia].
  unfold video_processing. rewrite capture_loop_app, Hpre. simpl.
  rewrite Hit. destruct e; done.
Qed.

Lemma capture_error_terminates_witness :
  capture_loop identity_subtractor [Ok [1%Z]] tt initial_store =
    (publish [1%Z] (log (EvApply [1%Z] [1%Z]) (log (EvCapture [1%Z]) initial_store)), Ok tt) ∧
  iteration identity_subtractor tt (Raise CaptureError)
    (publish [1%Z] (log (EvApply [1%Z] [1%Z]) (log (EvCapture [1%Z]) initial_store))) =
    (publish [1%Z] (log (EvApply [1%Z] [1%Z]) (log (EvCapture [1%Z]) initial_store)),
     Raise CaptureError) ∧
  video_processing tt identity_subtractor (Ok tt)
    ([Ok [1%Z]] ++ Raise CaptureError :: [Ok [2%Z]]) initial_store =
    (publish [1%Z] (log (EvApply [1%Z] [1%Z]) (log (EvCapture [1%Z]) initial_store)),
     Raise CaptureError).
Proof.
  split; [reflexivity|]. split; [reflexivity|].
  refine (proj1 (capture_error_terminates tt identity_subtractor [Ok [1%Z]]
            (Raise CaptureError) [Ok [2%Z]] initial_store _ _ tt CaptureError
            _ _ _)); [reflexivity|reflexivity|discriminate].
Defined.

(** ** C7: a Ctrl-C never stops the camera *)

(** C7. The handler that stops the camera runs only if [KeyboardInterrupt]
    is raised in the video thread; it is then reached once and calls
    [camera.stop()] once.  But SIGINT raises [KeyboardInterrupt] in the
    main thread: arriving at any point while the capture loop runs, it
    ends the main thread and the process, the daemon video thread is
    abandoned, and [camera.stop()] is never called. *)
Theorem sigint_never_stops_camera {BG} (bg_init : BG) bg_apply
    (script : list (outcome Frame)) (n : nat) (bg : BG) :
  (capture_loop bg_apply (take n script) bg_init initial_store).2 = Ok bg →
  stop_count (events (Process.video_store
    (Process.deliver_sigint bg_init bg_apply script n))) = 0 ∧
  Process.video_alive (Process.deliver_sigint bg_init bg_apply script n) = false ∧
  Process.main_alive (Process.deliver_sigint bg_init bg_apply script n) = false ∧
  stop_count (events (Process.video_store
    (Process.raise_in bg_init bg_apply script n Process.VideoThread))) = 1.
Proof.
  intros Hrun.
  pose proof (capture_loop_frame bg_apply (take n script) bg_init initial_store)
    as (_ & _ & Hs).
  unfold Process.deliver_sigint, Process.sigint_thread. simpl.
  split_and!; [by rewrite Hs|done|done|].
  unfold video_processing. rewrite capture_loop_app.
  destruct (capture_loop bg_apply (take n script) bg_init initial_store)
    as [s' [b|e]] eqn:Hl; simpl in *; [|discriminate].
  unfold camera_stop, log. simpl. rewrite stop_count_app, Hs. done.
Qed.

Lemma sigint_never_stops_camera_witness :
  (capture_loop identity_subtractor (take 1 [Ok [1%Z]; Ok [2%Z]]) tt initial_store).2
    = Ok tt ∧
  stop_count (events (Process.video_store
    (Process.deliver_sigint tt identity_subtractor [Ok [1%Z]; Ok [2%Z]] 1))) = 0.
Proof.
  split; [reflexivity|].
  exact (proj1 (sigint_never_stops_camera tt identity_subtractor
    [Ok [1%Z]; Ok [2%Z]] 1 tt eq_refl)).
Defined.

(** ** C8: images handed out are never written again *)

(** C8. Publishing binds [output_frame] to a fresh array, distinct from
    every array already alive; and however many further iterations the
    capture loop runs, the array of an image [generate_image] handed out
    keeps its pixels. *)
Theorem handed_images_never_mutated {BG} bg_apply (script : list (outcome Frame))
    (bg : BG) (s : store) (img : Image) :
  store_wf s →
  (generate_image s).1 = Some img →
  (∀ f, output_frame (publish f s) = Some (next_loc s) ∧ heap s !! next_loc s = None) ∧
  image_content (capture_loop bg_apply script bg s).1 (Some img) =
    image_content s (Some img) ∧
  is_Some (image_content s (Some img)).
Proof.
  intros [Hdom Hout] Himg. unfold generate_image in Himg.
  destruct (output_frame s) as [l|] eqn:Hl; simplify_eq/=.
  pose proof (Hout l eq_refl) as Hlive.
  assert (l < next_loc s) as Hlt by (apply Hdom, elem_of_dom, Hlive).
  split_and!; [|by apply capture_loop_frame|done].
  intros f. split; [done|].
  apply not_elem_of_dom. intros Hin. specialize (Hdom _ Hin). lia.
Qed.

Lemma handed_images_never_mutated_witness :
  store_wf (publish [3%Z] initial_store) ∧
  image_content (capture_loop identity_subtractor [Ok [4%Z]] tt
                   (publish [3%Z] initial_store)).1 (Some (mk_image 0)) = Some [3%Z].
Proof.
  assert (store_wf (publish [3%Z] initial_store)) as Hwf.
  { split; simpl.
    - intros l Hl. rewrite dom_insert_L, dom_empty_L in Hl. set_solver.
    - intros l [= <-]. by rewrite lookup_insert_eq. }
  split; [exact Hwf|].
  exact (eq_trans (proj1 (proj2 (handed_images_never_mutated identity_subtractor
    [Ok [4%Z]] tt (publish [3%Z] initial_store) (mk_image 0) Hwf eq_refl))) eq_refl).
Defined.

(** ** Helper lemma on the main program *)

Lemma main_unfold (th : Supervisor.thread_run) :
  Supervisor.main th =
    if Supervisor.is_alive th Supervisor.GRACE_MS then
      Supervisor.mk_main_result
        [(0, Supervisor.NotStarted); (0, Supervisor.Launching);
         (Supervisor.GRACE_MS, Supervisor.Ready)]
        ["Starting web API (may take a while)."]
    else
      Supervisor.mk_main_result
        [(0, Supervisor.NotStarted); (0, Supervisor.Launching);
         (Supervisor.GRACE_MS, Supervisor.Failed)]
        ["Unable to do video processing!"].
Proof. reflexivity. Qed.

(** ** C2: the interface is launched only if the thread survived the grace period *)

(** C2. The main program starts the video thread, and only at
    [GRACE_MS] after the start does it decide: it ends [Ready] (gradio
    launched, requests answered) exactly when the thread is still alive
    then, and otherwise ends [Failed], prints "Unable to do video
    processing!" and refuses every request.  In particular, when opening
    the camera raises before the grace period is over, the service ends
    [Failed] and no request is answered. *)
Theorem main_gating (th : Supervisor.thread_run) :
  Supervisor.trace (Supervisor.main th) =
    [(0, Supervisor.NotStarted); (0, Supervisor.Launching);
     (Supervisor.GRACE_MS, Supervisor.final_state (Supervisor.main th))] ∧
  (Supervisor.final_state (Supervisor.main th) = Supervisor.Ready ↔
     Supervisor.is_alive th Supervisor.GRACE_MS = true) ∧
  (Supervisor.final_state (Supervisor.main th) = Supervisor.Failed ↔
     Supervisor.is_alive th Supervisor.GRACE_MS = false) ∧
  (Supervisor.is_alive th Supervisor.GRACE_MS = false →
     Supervisor.printed (Supervisor.main th) = ["Unable to do video processing!"] ∧
     ∀ s, Supervisor.query (Supervisor.main th) s = None) ∧
  (∀ s, Supervisor.query (Supervisor.main th) s ≠ None →
     Supervisor.is_alive th Supervisor.GRACE_MS = true) ∧
  (∀ {BG} (bg_init : BG) bg_apply e script t_open t_fail,
     t_open ≤ Supervisor.GRACE_MS →
     Supervisor.final_state
       (Supervisor.main (Supervisor.video_thread bg_init bg_apply (Raise e) script t_open t_fail))
       = Supervisor.Failed ∧
     ∀ s, Supervisor.query
       (Supervisor.main (Supervisor.video_thread bg_init bg_apply (Raise e) script t_open t_fail)) s
       = None).
Proof.
  rewrite !main_unfold.
  unfold Supervisor.final_state, Supervisor.query.
  split_and!.
  - by destruct (Supervisor.is_alive th _).
  - destruct (Supervisor.is_alive th _); simpl; split; congruence.
  - destruct (Supervisor.is_alive th _); simpl; split; congruence.
  - intros ->. simpl. by split.
  - intros s. destruct (Supervisor.is_alive th _); simpl; congruence.
  - intros BG bg_init bg_apply e script t_open t_fail Hle.
    rewrite main_unfold. unfold Supervisor.video_thread.
    replace (Supervisor.is_alive (Supervisor.mk_thread_run (Some t_open))
               Supervisor.GRACE_MS) with false
      by (symmetry; apply Nat.ltb_ge; lia).
    simpl. by split.
Qed.

Lemma main_gating_witness :
  Supervisor.final_state
    (Supervisor.main (Supervisor.video_thread tt identity_subtractor
       (Raise StartupError) [] 200 0)) = Supervisor.Failed ∧
  Supervisor.final_state
    (Supervisor.main (Supervisor.video_thread tt identity_subtractor
       (Ok tt) [Ok [1%Z]] 200 0)) = Supervisor.Ready.
Proof.
  split.
  - exact (proj1 (proj2 (proj2 (proj2 (proj2 (proj2
      (main_gating (Supervisor.mk_thread_run None))))))
      unit tt identity_subtractor StartupError [] 200 0 ltac:(vm_compute; lia))).
  - apply (proj2 (proj1 (proj2 (main_gating _)))). reflexivity.
Defined.

(** ** Helper lemmas on the interleaving *)

Module InterleavingFacts.
Import Interleaving.

Lemma obs_ok_transfer (h h' : gmap loc Frame) (pub pub' : list Frame) img n :
  obs_ok h pub img n →
  (∀ i, img = Some i → h' !! image_value i = h !! image_value i) →
  pub `prefix_of` pub' →
  obs_ok h' pub' img n.
Proof.
  destruct img as [i|]; simpl; [|done].
  intros (Hn & f & Hf & Hp) Hh Hpre. split; [done|].
  exists f. rewrite Hh by done. split; [done|]. by eapply prefix_lookup_Some.
Qed.

(** Allocating at a location above every live array preserves what a
    read observed, and that read does not refer to the new array. *)
Lemma obs_ok_alloc (h : gmap loc Frame) pub img n nl x f k :
  (∀ l, is_Some (h !! l) → l < nl) →
  obs_ok h pub img n →
  obs_ok (<[nl := x]> h) pub img n ∧ not_copy_target (PCopy f nl k) img.
Proof.
  intros Hdom Hok.
  assert (∀ i, img = Some i → image_value i < nl) as Hlt.
  { intros i ->. destruct Hok as (_ & g & Hg & _). apply Hdom. by exists g. }
  split.
  - eapply obs_ok_transfer; [done| |done].
    intros i Hi. specialize (Hlt i Hi). rewrite lookup_insert_ne; [done|lia].
  - destruct img as [i|]; simpl; [|done]. specialize (Hlt i eq_refl). lia.
Qed.

(** Writing into the array being filled preserves what a read observed. *)
Lemma obs_ok_fill (h : gmap loc Frame) pub img n f f' l k k' x :
  not_copy_target (PCopy f l k) img →
  obs_ok h pub img n →
  obs_ok (<[l := x]> h) pub img n ∧ not_copy_target (PCopy f' l k') img.
Proof.
  intros Hnc Hok. split; [|destruct img; done].
  eapply obs_ok_transfer; [done| |done].
  intros i ->. simpl in Hnc. by rewrite lookup_insert_ne.
Qed.

(** Overwriting worker [i]'s state with [x]: worker [j] holds what it
    held before, or [j = i] and it holds what [x] does. *)
Lemma readers_insert_holds (rs : list rstate) i x j r :
  <[i := x]> rs !! j = Some r → rs !! j = Some r ∨ r = x.
Proof.
  intros Hj. rewrite list_lookup_insert in Hj.
  case_decide; [right; by simplify_eq|by left].
Qed.

Lemma step_inv (w w' : world) : inv w → step w w' → inv w'.
Proof.
  intros (Hdom & Hslot & Hslotc & Hrd & Hsv & Hcp) Hstep.
  destruct Hstep as [w f Hlk Hp|w f Hp|w f l n x Hp Hx|w f l Hp|w Hp
                    |w i Hi Hlk|w i Hi|w i img n Hi|w i img n Hi];
    unfold inv; simpl in *.
  - (* P_acquire *)
    rewrite Hp in Hslotc, Hrd, Hsv.
    split_and!; try done; intros; (split; [by eauto|done]).
  - (* P_alloc *)
    split_and!.
    + intros l Hl. rewrite lookup_insert in Hl. case_decide; [lia|].
      specialize (Hdom l Hl). lia.
    + exact (proj1 (obs_ok_alloc _ _ _ _ _ [] f 0 Hdom Hslot)).
    + exact (proj2 (obs_ok_alloc _ _ _ _ _ [] f 0 Hdom Hslot)).
    + intros i r Hi img n Hh. destruct (Hrd i r Hi img n Hh) as [Hok _].
      exact (obs_ok_alloc _ _ _ _ _ [] f 0 Hdom Hok).
    + intros img n Hin. destruct (Hsv img n Hin) as [Hok _].
      exact (obs_ok_alloc _ _ _ _ _ [] f 0 Hdom Hok).
    + intros f' l n [= <- <- <-]. by rewrite lookup_insert_eq.
  - (* P_fill *)
    rewrite Hp in Hslotc, Hrd, Hsv.
    split_and!.
    + intros l' Hl'. rewrite lookup_insert in Hl'. case_decide; [subst|by apply Hdom].
      apply Hdom. eexists. exact (Hcp f _ n Hp).
    + exact (proj1 (obs_ok_fill _ _ _ _ f f l n n _ Hslotc Hslot)).
    + exact (proj2 (obs_ok_fill _ _ _ _ f f l n (S n) (take (S n) f) Hslotc Hslot)).
    + intros i r Hi img n' Hh. destruct (Hrd i r Hi img n' Hh) as [Hok Hnc].
      exact (obs_ok_fill _ _ _ _ f f l n (S n) _ Hnc Hok).
    + intros img n' Hin. destruct (Hsv img n' Hin) as [Hok Hnc].
      exact (obs_ok_fill _ _ _ _ f f l n (S n) _ Hnc Hok).
    + intros f' l' n' [= <- <- <-]. by rewrite lookup_insert_eq.
  - (* P_assign *)
    split_and!; try done.
    + rewrite length_app. simpl. lia.
    + exists f. split.
      * pose proof (Hcp f l (length f) Hp) as Hl.
        rewrite take_ge in Hl by done. exact Hl.
      * apply list_lookup_middle. rewrite length_app. simpl. lia.
    + intros i r Hi img n Hh. split; [|exact I].
      eapply obs_ok_transfer; [apply (Hrd i r Hi img n Hh)|done|by apply prefix_app_r].
    + intros img n Hin. split; [|exact I].
      eapply obs_ok_transfer; [apply (Hsv img n Hin)|done|by apply prefix_app_r].
  - (* P_release *)
    rewrite Hp in Hslotc, Hrd, Hsv, Hcp.
    split_and!; try done; intros; (split; [by eauto|done]).
  - (* R_acquire *)
    split_and!; try done.
    intros j r Hj img n Hh.
    destruct (readers_insert_holds _ _ _ _ _ Hj) as [Hj'| ->]; [by eapply Hrd|].
    destruct Hh.
  - (* R_read *)
    split_and!; try done.
    intros j r Hj img n Hh.
    destruct (readers_insert_holds _ _ _ _ _ Hj) as [Hj'| ->]; [by eapply Hrd|].
    simpl in Hh. destruct Hh as [<- <-]. by split.
  - (* R_release *)
    split_and!; try done.
    intros j r Hj img' n' Hh.
    destruct (readers_insert_holds _ _ _ _ _ Hj) as [Hj'| ->]; [by eapply Hrd|].
    simpl in Hh. destruct Hh as [<- <-]. apply (Hrd i _ Hi). by split.
  - (* R_return *)
    split_and!; try done.
    + intros j r Hj img' n' Hh.
      destruct (readers_insert_holds _ _ _ _ _ Hj) as [Hj'| ->]; [by eapply Hrd|].
      destruct Hh.
    + intros img' n' Hin.
      apply elem_of_app in Hin as [Hin|Hin%list_elem_of_singleton];
        [by apply Hsv|simplify_eq; apply (Hrd i _ Hi); by split].
Qed.

Lemma steps_inv (w w' : world) : inv w → rtc step w w' → inv w'.
Proof. intros Hinv Hsteps. induction Hsteps; eauto using step_inv. Qed.

Lemma init_world_inv (k : nat) : inv (init_world k).
Proof.
  unfold inv, init_world. simpl. split_and!; try done.
  - intros l [f Hf]. by rewrite lookup_empty in Hf.
  - intros i r Hi img n Hh. apply lookup_replicate in Hi as [-> _]. destruct Hh.
  - intros img n Hin. set_solver.
Qed.

(** A step never unbinds [output_frame]. *)
Lemma step_output_bound (w w' : world) :
  step w w' → is_Some (output_frame (mem w)) → is_Some (output_frame (mem w')).
Proof. intros Hstep Ho. destruct Hstep; simpl; done. Qed.

(** A run of one publish of [[1; 2]] followed by one [generate_image]. *)
Lemma demo_run :
  ∃ w, rtc Interleaving.step (Interleaving.init_world 1) w ∧
       Interleaving.served w = [(Some (mk_image 0), 1)] ∧
       output_frame (Interleaving.mem w) = Some 0.
Proof.
  eexists. split; [|split].
  - unfold Interleaving.init_world, initial_store.
    eapply rtc_l. { apply (Interleaving.P_acquire _ [1%Z; 2%Z]); reflexivity. } cbn.
    eapply rtc_l. { apply (Interleaving.P_alloc _ [1%Z; 2%Z]); reflexivity. } cbn.
    eapply rtc_l. { apply (Interleaving.P_fill _ [1%Z; 2%Z] 0 0 1%Z); reflexivity. } cbn.
    eapply rtc_l. { apply (Interleaving.P_fill _ [1%Z; 2%Z] 0 1 2%Z); reflexivity. } cbn.
    eapply rtc_l. { apply (Interleaving.P_assign _ [1%Z; 2%Z] 0); reflexivity. } cbn.
    eapply rtc_l. { apply Interleaving.P_release; reflexivity. } cbn.
    eapply rtc_l. { apply (Interleaving.R_acquire _ 0); reflexivity. } cbn.
    eapply rtc_l. { apply (Interleaving.R_read _ 0); reflexivity. } cbn.
    eapply rtc_l. { apply (Interleaving.R_release _ 0 (Some (mk_image 0)) 1); reflexivity. } cbn.
    eapply rtc_l. { apply (Interleaving.R_return _ 0 (Some (mk_image 0)) 1); reflexivity. } cbn.
    apply rtc_refl.
  - reflexivity.
  - reflexivity.
Qed.

End InterleavingFacts.

(** ** C9: no torn reads *)

(** C9. In every interleaving of the capture thread's publishes with any
    number of [generate_image] calls, each image returned (and each image
    a call holds before returning, inside the [with lock:] block or after
    it) is either "not ready", and then no
    publish had completed when [output_frame] was read, or refers to an
    array holding exactly the frame of the [n]-th completed publish, [n]
    being the number of publishes completed when [output_frame] was read;
    never a partly copied frame. *)
Theorem served_reads_not_torn (k : nat) (w : Interleaving.world) :
  rtc Interleaving.step (Interleaving.init_world k) w →
  (∀ img n, (img, n) ∈ Interleaving.served w →
     Interleaving.obs_ok (heap (Interleaving.mem w)) (Interleaving.published w) img n) ∧
  (∀ i img n, Interleaving.readers w !! i = Some (Interleaving.RRead img n) ∨
              Interleaving.readers w !! i = Some (Interleaving.RReleased img n) →
     Interleaving.obs_ok (heap (Interleaving.mem w)) (Interleaving.published w) img n).
Proof.
  intros Hrun.
  destruct (InterleavingFacts.steps_inv _ _ (InterleavingFacts.init_world_inv k) Hrun)
    as (_ & _ & _ & Hrd & Hsv & _).
  split.
  - intros img n Hin. by apply Hsv.
  - intros i img n [Hi|Hi].
    + exact (proj1 (Hrd i _ Hi img n (conj eq_refl eq_refl))).
    + exact (proj1 (Hrd i _ Hi img n (conj eq_refl eq_refl))).
Qed.

Lemma served_reads_not_torn_witness :
  ∃ w, rtc Interleaving.step (Interleaving.init_world 1) w ∧
       (Some (mk_image 0), 1) ∈ Interleaving.served w ∧
       Interleaving.obs_ok (heap (Interleaving.mem w)) (Interleaving.published w)
         (Some (mk_image 0)) 1.
Proof.
  destruct InterleavingFacts.demo_run as (w & Hrun & Hsv & _).
  assert ((Some (mk_image 0), 1) ∈ Interleaving.served w) as Hin
    by (rewrite Hsv; by apply list_elem_of_singleton).
  exists w. split; [exact Hrun|]. split; [exact Hin|].
  exact (proj1 (served_reads_not_torn 1 w Hrun) _ _ Hin).
Defined.

(** ** C10: once published, never empty again *)

(** C10. In every reachable world [generate_image] answers "not ready"
    exactly when no publish has completed; and once [output_frame] is
    bound, no later step of either thread unbinds it, so every later
    [generate_image] returns an image. *)
Theorem output_frame_stays_bound (k : nat) (w w' : Interleaving.world) :
  rtc Interleaving.step (Interleaving.init_world k) w →
  rtc Interleaving.step w w' →
  ((generate_image (Interleaving.mem w)).1 = None ↔ Interleaving.published w = []) ∧
  (is_Some (output_frame (Interleaving.mem w)) →
     is_Some (output_frame (Interleaving.mem w')) ∧
     is_Some (generate_image (Interleaving.mem w')).1).
Proof.
  intros Hrun Hlater. split.
  - destruct (InterleavingFacts.steps_inv _ _ (InterleavingFacts.init_world_inv k) Hrun)
      as (_ & Hslot & _).
    unfold generate_image in *. simpl in *.
    destruct (output_frame (Interleaving.mem w)); simpl in Hslot.
    + split; [done|]. intros Hp. rewrite Hp in Hslot. simpl in Hslot. lia.
    + split; [|done]. intros _. by apply nil_length_inv.
  - intros Ho.
    assert (is_Some (output_frame (Interleaving.mem w'))) as [l Hl].
    { induction Hlater as [w|w1 w2 w3 Hs _ IH]; [done|].
      apply IH; [|by eapply InterleavingFacts.step_output_bound].
      eapply rtc_r; [exact Hrun|exact Hs]. }
    split; [by exists l|]. unfold generate_image. rewrite Hl. by eexists.
Qed.

Lemma output_frame_stays_bound_witness :
  ∃ w, rtc Interleaving.step (Interleaving.init_world 1) w ∧
       is_Some (output_frame (Interleaving.mem w)) ∧
       is_Some (generate_image (Interleaving.mem w)).1.
Proof.
  destruct InterleavingFacts.demo_run as (w & Hrun & _ & Ho).
  exists w. split; [exact Hrun|].
  assert (is_Some (output_frame (Interleaving.mem w))) as Hs by (rewrite Ho; by eexists).
  split; [exact Hs|].
  exact (proj2 (proj2 (output_frame_stays_bound 1 w w Hrun (rtc_refl _ w)) Hs)).
Defined.

(** * Further properties of the capture thread *)

Lemma publish_count_app (l1 l2 : list event) :
  publish_count (l1 ++ l2) = publish_count l1 + publish_count l2.
Proof. induction l1 as [|[] l1 IH]; simpl; lia. Qed.

Lemma iteration_events_grow {BG} bg_apply (bg : BG) c s :
  events s `prefix_of` events (iteration bg_apply bg c s).1.
Proof.
  unfold iteration. destruct c as [frame|e]; simpl; [|done].
  destruct (bg_apply bg frame) as [[mask bg']|e]; simpl.
  - rewrite <- !app_assoc. by apply prefix_app_r.
  - by apply prefix_app_r.
Qed.

(** An array present after an iteration was present before with the same
    pixels, or holds a frame captured by the iteration: the iteration
    appends events, among them that capture. *)
Lemma iteration_arrays {BG} bg_apply (bg : BG) c s l f :
  heap (iteration bg_apply bg c s).1 !! l = Some f →
  heap s !! l = Some f ∨
  ∃ k, events (iteration bg_apply bg c s).1 = events s ++ k ∧ EvCapture f ∈ k.
Proof.
  unfold iteration. destruct c as [frame|e]; simpl; [|by left].
  destruct (bg_apply bg frame) as [[mask bg']|e]; simpl; [|by left].
  rewrite lookup_insert. case_decide; [|by left].
  intros [= <-]. right. rewrite <- !app_assoc. eexists. split; [done|]. set_solver.
Qed.

Lemma capture_loop_events_grow {BG} bg_apply script (bg : BG) s :
  ∃ k, events (capture_loop bg_apply script bg s).1 = events s ++ k.
Proof.
  revert bg s. induction script as [|c script IH]; intros bg s; simpl.
  - exists []. by rewrite app_nil_r.
  - destruct (iteration_events_grow bg_apply bg c s) as [k1 Hk1].
    destruct (iteration bg_apply bg c s) as [s' [bg'|e]]; simpl in *; [|by eexists].
    destruct (IH bg' s') as [k2 ->]. exists (k1 ++ k2). by rewrite Hk1, app_assoc.
Qed.

Lemma capture_loop_arrays {BG} bg_apply script (bg : BG) s l f :
  heap (capture_loop bg_apply script bg s).1 !! l = Some f →
  heap s !! l = Some f ∨
  ∃ k, events (capture_loop bg_apply script bg s).1 = events s ++ k ∧ EvCapture f ∈ k.
Proof.
  revert bg s. induction script as [|c script IH]; intros bg s; simpl; [by left|].
  pose proof (iteration_arrays bg_apply bg c s l f) as Hit.
  destruct (iteration_events_grow bg_apply bg c s) as [k1 Hk1].
  destruct (iteration bg_apply bg c s) as [s' [bg'|e]] eqn:Heq; simpl in *; [|done].
  intros Hl. destruct (IH bg' s' Hl) as [Hs'|(k2 & Hk2 & Hin)].
  - destruct (Hit Hs') as [Hs|(k & Hk & Hin)]; [by left|right].
    destruct (capture_loop_events_grow bg_apply script bg' s') as [k2 Hk2].
    exists (k ++ k2). rewrite Hk2, Hk, app_assoc. split; [done|]. set_solver.
  - right. exists (k1 ++ k2). rewrite Hk2, Hk1, app_assoc. split; [done|]. set_solver.
Qed.

(** X2. [video_processing] never stores anything but captured frames:
    every array present when it returns was already there with the same
    pixels, or holds a frame whose capture is among the events the run
    appended (a background-subtraction mask is never stored, unless it
    equals a frame captured during the run). *)
Theorem video_processing_stores_only_captures {BG} (bg_init : BG) bg_apply
    (opened : outcome unit) (script : list (outcome Frame)) (s : store) (l : loc) (f : Frame) :
  heap (video_processing bg_init bg_apply opened script s).1 !! l = Some f →
  heap s !! l = Some f ∨
  ∃ k, events (video_processing bg_init bg_apply opened script s).1 = events s ++ k ∧
       EvCapture f ∈ k.
Proof.
  unfold video_processing. destruct opened as [u|e]; simpl; [|by left].
  pose proof (capture_loop_arrays bg_apply script bg_init s l f) as Harr.
  destruct (capture_loop bg_apply script bg_init s) as [s' [b|[]]]; simpl in *;
    try exact Harr.
  intros Hl. destruct (Harr Hl) as [H|(k & Hk & Hin)]; [by left|right].
  exists (k ++ [EvStop]). rewrite Hk, app_assoc. split; [done|]. set_solver.
Qed.

Lemma video_processing_stores_only_captures_witness :
  heap (video_processing tt identity_subtractor (Ok tt) [Ok [4%Z]]
          (publish [9%Z] initial_store)).1 !! 1 = Some [4%Z] ∧
  (heap (publish [9%Z] initial_store) !! 1 = Some [4%Z] ∨
   ∃ k, events (video_processing tt identity_subtractor (Ok tt) [Ok [4%Z]]
                  (publish [9%Z] initial_store)).1 =
        events (publish [9%Z] initial_store) ++ k ∧ EvCapture [4%Z] ∈ k).
Proof.
  assert (heap (video_processing tt identity_subtractor (Ok tt) [Ok [4%Z]]
                 (publish [9%Z] initial_store)).1 !! 1 = Some [4%Z]) as H
    by reflexivity.
  split; [exact H|].
  exact (video_processing_stores_only_captures tt identity_subtractor (Ok tt)
           [Ok [4%Z]] (publish [9%Z] initial_store) 1 [4%Z] H).
Defined.

(** X3. When the capture loop is still running after a sequence of
    [capture_array] answers, every answer was a frame, each was published
    (one [output_frame] assignment per frame), and [generate_image] then
    shows exactly the last frame captured. *)
Theorem capture_loop_running_publishes_all {BG} bg_apply (script : list (outcome Frame))
    (bg bg' : BG) (s s' : store) :
  capture_loop bg_apply script bg s = (s', Ok bg') →
  Forall (λ c, ∃ f, c = Ok f) script ∧
  publish_count (events s') = publish_count (events s) + length script ∧
  (∀ f, last script = Some (Ok f) → image_content s' (generate_image s').1 = Some f).
Proof.
  revert bg s. induction script as [|c script IH]; intros bg s Hrun; simpl in Hrun.
  - simplify_eq. split_and!; [done|simpl; lia|done].
  - destruct c as [frame|e]; simpl in Hrun; [|done].
    destruct (bg_apply bg frame) as [[mask b1]|e] eqn:Happ; simpl in Hrun; [|done].
    destruct (IH _ _ Hrun) as (Hall & Hcnt & Hlast).
    split_and!.
    + constructor; [by eexists|done].
    + rewrite Hcnt. simpl. rewrite !publish_count_app. simpl. lia.
    + intros f Hf. destruct script as [|c' script'].
      * simpl in Hf, Hrun. simplify_eq. simpl. by rewrite lookup_insert_eq.
      * apply Hlast. done.
Qed.

Lemma capture_loop_running_publishes_all_witness :
  capture_loop identity_subtractor [Ok [1%Z]; Ok [2%Z]] tt initial_store =
    ((capture_loop identity_subtractor [Ok [1%Z]; Ok [2%Z]] tt initial_store).1, Ok tt) ∧
  publish_count (events (capture_loop identity_subtractor [Ok [1%Z]; Ok [2%Z]] tt
                           initial_store).1) = 2.
Proof.
  assert (capture_loop identity_subtractor [Ok [1%Z]; Ok [2%Z]] tt initial_store =
    ((capture_loop identity_subtractor [Ok [1%Z]; Ok [2%Z]] tt initial_store).1, Ok tt))
    as H by reflexivity.
  split; [exact H|].
  exact (proj1 (proj2 (capture_loop_running_publishes_all identity_subtractor
    [Ok [1%Z]; Ok [2%Z]] tt tt initial_store _ H))).
Defined.

(** X5. [camera.stop()] is called at most once per run of
    [video_processing], and exactly when the camera was opened and
    [KeyboardInterrupt] escaped the loop; an interrupt while the camera is
    being opened or configured (outside the [try]) does not stop it. *)
Theorem video_processing_stop_count {BG} (bg_init : BG) bg_apply
    (opened : outcome unit) (script : list (outcome Frame)) (s : store) :
  stop_count (events (video_processing bg_init bg_apply opened script s).1) =
    stop_count (events s) +
    match opened, (video_processing bg_init bg_apply opened script s).2 with
    | Ok _, Raise KeyboardInterrupt => 1
    | _, _ => 0
    end.
Proof.
  unfold video_processing. destruct opened as [u|e]; simpl; [|lia].
  pose proof (capture_loop_frame bg_apply script bg_init s) as (_ & _ & Hs).
  destruct (capture_loop bg_apply script bg_init s) as [s' [b|[]]]; simpl in *;
    try lia.
  rewrite stop_count_app, Hs. simpl. lia.
Qed.

(** * The lock discipline of the two threads *)

Module LockFacts.
Import Interleaving.

Lemma lock_of_reader (w : world) i r :
  lock_inv w → readers w !! i = Some r → in_with r → lock w = Some (ByReader i).
Proof.
  unfold lock_inv. destruct (lock w) as [[|j]|]; intros Hinv Hi Hr.
  - destruct Hinv as [_ Hall]. by destruct (Hall i r Hi).
  - destruct (decide (i = j)) as [->|Hne]; [done|].
    destruct Hinv as (_ & _ & Hall). by destruct (Hall i r Hne Hi).
  - destruct Hinv as [_ Hall]. by destruct (Hall i r Hi).
Qed.

Lemma lock_of_producer (w : world) :
  lock_inv w → producer w ≠ PIdle → lock w = Some ByProducer.
Proof.
  unfold lock_inv. destruct (lock w) as [[|j]|]; intros Hinv Hp; [done| |];
    destruct Hinv as [Hp' _]; done.
Qed.

(** Moving a worker from outside every [with lock:] block to another
    state outside them, leaving the lock and the capture thread alone,
    keeps the lock discipline. *)
Lemma lock_inv_outside (w w' : world) i r0 x :
  lock_inv w → readers w !! i = Some r0 → ¬ in_with r0 → ¬ in_with x →
  lock w' = lock w → producer w' = producer w → readers w' = <[i := x]> (readers w) →
  lock_inv w'.
Proof.
  intros Hinv Hi Hr0 Hx Hl Hp Hr. unfold lock_inv in *. rewrite Hl, Hp, Hr.
  destruct (lock w) as [[|i0]|].
  - destruct Hinv as [Hp' Hall]. split; [done|]. intros j r Hj.
    destruct (InterleavingFacts.readers_insert_holds _ _ _ _ _ Hj) as [Hj'| ->];
      [by eapply Hall|done].
  - destruct Hinv as (Hp' & (r & Hi0 & Hr') & Hall). split_and!; [done| |].
    + destruct (decide (i = i0)) as [->|Hne].
      * exfalso. rewrite Hi in Hi0. injection Hi0 as ->. by apply Hr0.
      * exists r. by rewrite list_lookup_insert_ne.
    + intros j r' Hne Hj.
      destruct (InterleavingFacts.readers_insert_holds _ _ _ _ _ Hj) as [Hj'| ->];
        [by eapply Hall|done].
  - destruct Hinv as [Hp' Hall]. split; [done|]. intros j r Hj.
    destruct (InterleavingFacts.readers_insert_holds _ _ _ _ _ Hj) as [Hj'| ->];
      [by eapply Hall|done].
Qed.

Lemma step_lock_inv (w w' : world) : lock_inv w → step w w' → lock_inv w'.
Proof.
  intros Hinv Hstep.
  destruct Hstep as [w f Hlk Hp|w f Hp|w f l n x Hp Hx|w f l Hp|w Hp
                    |w i Hi Hlk|w i Hi|w i img n Hi|w i img n Hi].
  - unfold lock_inv in *. rewrite Hlk in Hinv. simpl. by destruct Hinv.
  - pose proof (lock_of_producer w Hinv ltac:(by rewrite Hp)) as Hlk.
    unfold lock_inv in *. rewrite Hlk in Hinv. simpl. rewrite Hlk. by destruct Hinv.
  - pose proof (lock_of_producer w Hinv ltac:(by rewrite Hp)) as Hlk.
    unfold lock_inv in *. rewrite Hlk in Hinv. simpl. rewrite Hlk. by destruct Hinv.
  - pose proof (lock_of_producer w Hinv ltac:(by rewrite Hp)) as Hlk.
    unfold lock_inv in *. rewrite Hlk in Hinv. simpl. rewrite Hlk. by destruct Hinv.
  - pose proof (lock_of_producer w Hinv ltac:(by rewrite Hp)) as Hlk.
    unfold lock_inv in *. rewrite Hlk in Hinv. simpl. by destruct Hinv.
  - unfold lock_inv in *. rewrite Hlk in Hinv. simpl. destruct Hinv as [Hp Hall].
    split_and!; [done| |].
    + exists RLocked. split; [|done]. rewrite list_lookup_insert_eq; [done|].
      by eapply lookup_lt_Some.
    + intros j r Hne Hj. rewrite list_lookup_insert_ne in Hj by done. by eapply Hall.
  - pose proof (lock_of_reader w i _ Hinv Hi ltac:(done)) as Hlk.
    unfold lock_inv in *. rewrite Hlk in Hinv. simpl. rewrite Hlk.
    destruct Hinv as (Hp & _ & Hall). split_and!; [done| |].
    + eexists. split; [rewrite list_lookup_insert_eq;
        [done|by eapply lookup_lt_Some]|done].
    + intros j r Hne Hj. rewrite list_lookup_insert_ne in Hj by done. by eapply Hall.
  - pose proof (lock_of_reader w i _ Hinv Hi ltac:(done)) as Hlk.
    unfold lock_inv in *. rewrite Hlk in Hinv. simpl.
    destruct Hinv as (Hp & _ & Hall). split; [done|].
    intros j r Hj. destruct (decide (j = i)) as [->|Hne].
    + rewrite list_lookup_insert_eq in Hj by (by eapply lookup_lt_Some).
      injection Hj as <-. by intros [].
    + rewrite list_lookup_insert_ne in Hj by done. by eapply Hall.
  - eapply (lock_inv_outside w _ i (RReleased img n) RIdle); try done;
      by intros [].
Qed.

Lemma steps_lock_inv (k : nat) (w : world) :
  rtc step (init_world k) w → lock_inv w.
Proof.
  intros Hrun. cut (lock_inv (init_world k)).
  - intros Hinit. clear - Hrun Hinit. induction Hrun; eauto using step_lock_inv.
  - unfold lock_inv, init_world. simpl. split; [done|].
    intros i r Hi. apply lookup_replicate in Hi as [-> _]. by intros [].
Qed.

End LockFacts.

(** X6. The lock does its job: in every interleaving, while the capture
    thread is inside its [with lock:] block no gradio worker is inside
    [generate_image]'s, and no two workers are inside theirs at once. *)
Theorem lock_mutual_exclusion (k : nat) (w : Interleaving.world) :
  rtc Interleaving.step (Interleaving.init_world k) w →
  (Interleaving.producer w ≠ Interleaving.PIdle →
     ∀ i r, Interleaving.readers w !! i = Some r → ¬ Interleaving.in_with r) ∧
  (∀ i j ri rj, Interleaving.readers w !! i = Some ri →
     Interleaving.readers w !! j = Some rj →
     Interleaving.in_with ri → Interleaving.in_with rj → i = j).
Proof.
  intros Hrun. pose proof (LockFacts.steps_lock_inv k w Hrun) as Hinv. split.
  - intros Hp. pose proof (LockFacts.lock_of_producer w Hinv Hp) as Hlk.
    unfold lock_inv in Hinv. rewrite Hlk in Hinv. by destruct Hinv.
  - intros i j ri rj Hi Hj Hri Hrj.
    pose proof (LockFacts.lock_of_reader w i ri Hinv Hi Hri) as Hli.
    pose proof (LockFacts.lock_of_reader w j rj Hinv Hj Hrj) as Hlj.
    rewrite Hli in Hlj. by injection Hlj.
Qed.

Lemma lock_mutual_exclusion_witness :
  ∃ w, rtc Interleaving.step (Interleaving.init_world 1) w ∧
       (∀ i j ri rj, Interleaving.readers w !! i = Some ri →
          Interleaving.readers w !! j = Some rj →
          Interleaving.in_with ri → Interleaving.in_with rj → i = j).
Proof.
  destruct InterleavingFacts.demo_run as (w & Hrun & _).
  exists w. split; [exact Hrun|]. exact (proj2 (lock_mutual_exclusion 1 w Hrun)).
Defined.
